(** * dnsleak: the correlation store, the query recorder and the leak aggregator

    A shallow embedding of [main.go]: the DNS handler [Handle.ServeDNS]
    (write path), the HTTP handler [lookup] (read path), and the two library
    facilities they lean on, [strings.Split] and the expiring map
    [ttl_map.Heap].  Go strings are byte sequences and are modelled by
    [string]; Go maps are modelled by [gmap]; wall-clock time is the Unix
    time in seconds, an integer. *)

From Stdlib Require Import ZArith String Ascii List Lia.
From stdpp Require Import base gmap strings list fin_maps.

Open Scope Z_scope.
Open Scope string_scope.

(** ** Go strings *)

(** [len(s)] as a Go [int]. *)
Definition len (s : string) : Z := Z.of_nat (String.length s).

(** The slice expression [s[:hi]]; Go panics when [hi] is out of range,
    which is [None] here. *)
Definition slice_to (s : string) (hi : Z) : option string :=
  if decide (0 <= hi <= len s) then Some (substring 0 (Z.to_nat hi) s) else None.

(** [strings.Split(s, sep)] for a one-byte separator: the pieces between the
    occurrences of [sep]; one more piece than there are separators, so the
    empty string splits into one empty piece. *)
Fixpoint Split (s : string) (sep : ascii) : list string :=
  match s with
  | EmptyString => [EmptyString]
  | String c s' =>
      if decide (c = sep) then EmptyString :: Split s' sep
      else match Split s' sep with
           | piece :: pieces => String c piece :: pieces
           | [] => [String c EmptyString]
           end
  end.

(** The list separator of the stored values. *)
Definition comma : ascii := ","%char.

(** A string in which the list separator does not occur. *)
Fixpoint comma_free (s : string) : Prop :=
  match s with
  | EmptyString => True
  | String c s' => c ≠ comma ∧ comma_free s'
  end.

(** ** The expiring map *)

(** One stored item: the value and the Unix time at which it expires. *)
Record Data := mkData { Value : string; Timestamp : Z }.

(** Modelled from the spec: the expiring map [ttl_map.Heap] of
    github.com/leprosus/golang-ttl-map, a dependency whose source is not in
    the repository.  [Get] returns the stored value while the wall clock is
    before the stored deadline and the empty string otherwise (absent or
    expired key); it never changes an item.  [Set] stores the value with the
    deadline now + ttl, replacing any previous item of the key. *)
Definition cache_Get (cache : gmap string Data) (now : Z) (key : string) : string :=
  match cache !! key with
  | Some d => if decide (now < Timestamp d) then Value d else ""
  | None => ""
  end.

Definition cache_Set (cache : gmap string Data) (now : Z) (key value : string)
    (ttl : Z) : gmap string Data :=
  <[key := mkData value (now + ttl)]> cache.

(** ** The query recorder: [Handle.ServeDNS] *)

(** [w.RemoteAddr()]: the two kinds the handler recognises carry the text
    that [addr.IP.String()] yields; any other [net.Addr] is [OtherAddr]. *)
Inductive Addr :=
  | UDPAddr (ip : string)
  | TCPAddr (ip : string)
  | OtherAddr (network : string).

(** [dns.Msg], reduced to the names of its question section. *)
Record Msg := mkMsg { Question : list string }.

(** How a goroutine can die. *)
Inductive panic :=
  | PanicValue (v : string)
  | IndexOutOfRange
  | SliceBoundsOutOfRange.

Inductive outcome (A : Type) :=
  | Returned (a : A)
  | Panicked (p : panic).
Arguments Returned {A} a.
Arguments Panicked {A} p.

(** The window of a record, [cache.Set(domain, ips, 300)]. *)
Definition defaultTTL : Z := 300.

(** Lines 48-50: read the value of the key, put the separator and the
    address behind it, write it back with a fresh deadline. *)
Definition Append (cache : gmap string Data) (now : Z) (domain ip : string)
    (ttl : Z) : gmap string Data :=
  let ips := cache_Get cache now domain in
  let ips := ips +:+ "," +:+ ip in
  cache_Set cache now domain ips ttl.

Definition ServeDNS (cache : gmap string Data) (now : Z) (w : Addr) (req : Msg)
    : outcome (gmap string Data) :=
  let ip := "" in
  let ip := match w with UDPAddr a => a | _ => ip end in
  let ip := match w with TCPAddr a => a | _ => ip end in
  if decide (ip = "") then Panicked (PanicValue "IP not found?")
  else
    match Question req with
    | [] => Panicked IndexOutOfRange
    | name :: _ =>
        match slice_to name (len name - 1) with
        | None => Panicked SliceBoundsOutOfRange
        | Some domain => Returned (Append cache now domain ip defaultTTL)
        end
    end.

(** What a reader of the store sees for a key: line 92 followed by the split
    of line 93. *)
Definition Read (cache : gmap string Data) (now : Z) (domain : string) : list string :=
  Split (cache_Get cache now domain) comma.

(** ** The leak aggregator: [lookup] *)

(** The request as the handler sees it: the method, and the body after
    [json.NewDecoder(r.Body).Decode(&d)], which either fails or fills
    [d.Domain]. *)
Record Request := mkRequest { Method : string; Body : option (list string) }.

(** The JSON object of one network: [type Response struct]. *)
Record Response := mkResponse { ISP : string; Country : string; IP : string }.

(** What the client gets: a plain body, [http.Error(w, msg, code)], or the
    encoded [map[uint]Response]. *)
Inductive HttpResponse :=
  | RespBody (body : string)
  | RespError (msg : string) (code : Z)
  | RespJSON (out : gmap N Response).

(** The records of the two geoip2 readers, reduced to the fields read. *)
Record geoip2_ASN := mkASN
  { AutonomousSystemNumber : N; AutonomousSystemOrganization : string }.
Record geoip2_Country := mkCountry { IsoCode : string }.

(** A Go [int] on a 64-bit platform. *)
Definition wrap_int (x : Z) : Z := (x + 2 ^ 63) mod 2 ^ 64 - 2 ^ 63.

(** Lines 93-96: count every piece of a split value. *)
Definition count_ips (uniqips : gmap string Z) (ips : list string) : gmap string Z :=
  foldl (λ m ip, let n := default 0 (m !! ip) in <[ip := wrap_int (n + 1)]> m)
        uniqips ips.

(** Lines 90-97: the addresses of all requested domains, as the key set of
    [uniqips]. *)
Definition collect (cache : gmap string Data) (now : Z) (domains : list string)
    : gmap string Z :=
  foldl (λ m domain, count_ips m (Split (cache_Get cache now domain) comma))
        ∅ domains.

(** The keys of a map.  A [range] statement visits them in an order that Go
    leaves unspecified and that may change from one loop to the next; an
    order is admissible when it visits every key once. *)
Definition keys (m : gmap string Z) : list string := (map_to_list m).*1.

Definition range_order (m : gmap string Z) (order : list string) : Prop :=
  order ≡ₚ keys m.

Section Aggregator.

(** The IP-intelligence datasets and the address parser are read-only
    collaborators: [None] stands for the error return of a reader. *)
Variable net_IP : Type.
Variable ParseIP : string → net_IP.
Variable dbCountry : net_IP → option geoip2_Country.
Variable dbASN : net_IP → option geoip2_ASN.

(** Lines 121-127: an identifier already in [out] keeps its entry. *)
Definition put_if_absent (out : gmap N Response) (asn : N) (r : Response)
    : gmap N Response :=
  match out !! asn with
  | Some _ => out
  | None => <[asn := r]> out
  end.

(** Lines 101-129, over the keys in the order the loop visits them.
    [None] is the early return after [http.Error]; the [break] of line 103
    leaves the loop with the mapping built so far. *)
Fixpoint humanize (order : list string) (out : gmap N Response)
    : option (gmap N Response) :=
  match order with
  | [] => Some out
  | ipstr :: rest =>
      if decide (len ipstr = 0) then Some out
      else
        let ip := ParseIP ipstr in
        match dbCountry ip with
        | None => None
        | Some country =>
            match dbASN ip with
            | None => None
            | Some isp =>
                humanize rest
                  (put_if_absent out (AutonomousSystemNumber isp)
                     (mkResponse (AutonomousSystemOrganization isp)
                                 (IsoCode country) ipstr))
            end
        end
  end.

(** [lookup]; [range] is the order in which this call's loop of line 101
    visits the keys of [uniqips]. *)
Definition lookup (cache : gmap string Data) (now : Z) (r : Request)
    (range : gmap string Z → list string) : HttpResponse :=
  if decide (Method r = "OPTIONS") then RespBody "CORS :)"
  else
    match Body r with
    | None => RespError "failed decoding input" 400
    | Some d =>
        let uniqips := collect cache now d in
        match humanize (range uniqips) ∅ with
        | None => RespError "failed parsing IPs" 400
        | Some out => RespJSON out
        end
    end.

(** The enriched entry of an address, when both readers know it. *)
Definition enrich (ipstr : string) : option (N * Response) :=
  match dbCountry (ParseIP ipstr), dbASN (ParseIP ipstr) with
  | Some country, Some isp =>
      Some (AutonomousSystemNumber isp,
            mkResponse (AutonomousSystemOrganization isp) (IsoCode country) ipstr)
  | _, _ => None
  end.

End Aggregator.

(** ** Overlapping handlers *)

(** One running [ServeDNS] past its checks, at the grain of its two calls
    into the store: before line 48, between line 48 and line 50 (holding the
    value it read), and after line 50. *)
Inductive pc :=
  | AtGet
  | AtSet (ips : string)
  | Finished.

Record handler := mkHandler { h_domain : string; h_ip : string; h_pc : pc }.

(** One step of one handler. *)
Definition step (now : Z) (cache : gmap string Data) (h : handler)
    : gmap string Data * handler :=
  match h_pc h with
  | AtGet =>
      (cache, mkHandler (h_domain h) (h_ip h) (AtSet (cache_Get cache now (h_domain h))))
  | AtSet ips =>
      (cache_Set cache now (h_domain h) (ips +:+ "," +:+ h_ip h) defaultTTL,
       mkHandler (h_domain h) (h_ip h) Finished)
  | Finished => (cache, h)
  end.

(** A schedule names, step by step, the handler that moves next. *)
Fixpoint run (now : Z) (schedule : list nat) (cache : gmap string Data)
    (hs : list handler) : gmap string Data * list handler :=
  match schedule with
  | [] => (cache, hs)
  | i :: schedule' =>
      match hs !! i with
      | None => run now schedule' cache hs
      | Some h =>
          let '(cache', h') := step now cache h in
          run now schedule' cache' (<[i := h']> hs)
      end
  end.

(** [n] handlers for one domain, one per address, none started. *)
Definition spawn (domain : string) (ips : list string) : list handler :=
  (λ ip, mkHandler domain ip AtGet) <$> ips.

(** A schedule in which the handlers run one after the other, in the order
    [turns]: each does its two steps back to back. *)
Definition serial (turns : list nat) : list nat :=
  turns ≫= (λ i, [i; i]).

(** ** A server run *)

(** The stores a server reaches from an empty one by answering queries. *)
Inductive reachable : gmap string Data → Prop :=
  | reach_empty : reachable ∅
  | reach_query cache now w req cache' :
      reachable cache →
      ServeDNS cache now w req = Returned cache' →
      reachable cache'.

(** What happens at a store over time: a query recorded by [ServeDNS], or a
    reader calling [cache.Get] (line 92), which leaves the store as it is. *)
Inductive event :=
  | EvQuery (now : Z) (w : Addr) (req : Msg)
  | EvGet (now : Z) (domain : string).

Definition exec (cache : gmap string Data) (ev : event) : outcome (gmap string Data) :=
  match ev with
  | EvQuery now w req => ServeDNS cache now w req
  | EvGet now domain => let _ := cache_Get cache now domain in Returned cache
  end.

(** A panic ends the process, and the run with it. *)
Fixpoint exec_all (cache : gmap string Data) (evs : list event)
    : outcome (gmap string Data) :=
  match evs with
  | [] => Returned cache
  | ev :: evs' =>
      match exec cache ev with
      | Returned cache' => exec_all cache' evs'
      | Panicked p => Panicked p
      end
  end.

(** The key under which an event writes, if it is a query that gets as far
    as line 50. *)
Definition written_key (ev : event) : option string :=
  match ev with
  | EvQuery _ _ req =>
      match Question req with
      | name :: _ => slice_to name (len name - 1)
      | [] => None
      end
  | EvGet _ _ => None
  end.

(** ** The specification's wording, for comparison *)

(** The key as the specification describes it: a trailing root separator is
    taken off, a name without one is left as it is. *)
Fixpoint spec_strip_root (domain : string) : string :=
  match domain with
  | EmptyString => EmptyString
  | String c rest =>
      match rest with
      | EmptyString => if decide (c = "."%char) then EmptyString else domain
      | String _ _ => String c (spec_strip_root rest)
      end
  end.

(** ** Sample collaborators *)

(** A small dataset: two addresses of one network, one of another, and
    nothing else. *)
Definition sample_ASN (ip : string) : option geoip2_ASN :=
  if decide (ip = "1.2.3.4") then Some (mkASN 64500 "ExampleISP")
  else if decide (ip = "1.2.3.5") then Some (mkASN 64500 "ExampleISP-2")
  else if decide (ip = "5.6.7.8") then Some (mkASN 64501 "OtherISP")
  else None.

Definition sample_Country (ip : string) : option geoip2_Country :=
  if decide (ip = "1.2.3.4") then Some (mkCountry "US")
  else if decide (ip = "1.2.3.5") then Some (mkCountry "CA")
  else if decide (ip = "5.6.7.8") then Some (mkCountry "DE")
  else None.

Definition sample_ParseIP (s : string) : string := s.

(** Admissible iteration orders: the empty key first, or last. *)
Definition empty_first (m : gmap string Z) : list string :=
  filter (λ k, k = "") (keys m) ++ filter (λ k, ¬ k = "") (keys m).

Definition empty_last (m : gmap string Z) : list string :=
  filter (λ k, ¬ k = "") (keys m) ++ filter (λ k, k = "") (keys m).


(** Two stores after queries for [x.test]: one with addresses of two
    networks, one with an address that the datasets do not know; and the
    request for that domain. *)
Definition two_networks : gmap string Data :=
  Append (Append ∅ 0 "x.test" "1.2.3.4" 300) 1 "x.test" "5.6.7.8" 300.

Definition unknown_address : gmap string Data :=
  Append ∅ 0 "x.test" "10.0.0.1" 300.

Definition sample_request : Request := mkRequest "POST" (Some ["x.test"]).

Definition sample_lookup :=
  lookup string sample_ParseIP sample_Country sample_ASN.

Definition sample_enrich :=
  enrich string sample_ParseIP sample_Country sample_ASN.

(** A store with three addresses for [x.test], two of them in one
    network. *)
Definition three_addresses : gmap string Data :=
  Append (Append (Append ∅ 0 "x.test" "1.2.3.4" 300) 1 "x.test" "1.2.3.5" 300)
         2 "x.test" "5.6.7.8" 300.

(** The answer for [three_addresses] when 1.2.3.5 is visited before
    1.2.3.4. *)
Definition first_seen_answer : gmap N Response :=
  {[ 64500%N := mkResponse "ExampleISP-2" "CA" "1.2.3.5";
     64501%N := mkResponse "OtherISP" "DE" "5.6.7.8" ]}.



(** ** Runs of queries for one name *)

(** The text that lines 31-37 leave in [ip]: the address of a UDP or TCP
    peer, and the empty string for any other kind of peer. *)
Definition addr_text (w : Addr) : string :=
  match w with
  | UDPAddr a => a
  | TCPAddr a => a
  | OtherAddr _ => ""
  end.

(** Queries for the fully qualified name of [D], one per time and peer. *)
Definition queries_for (D : string) (l : list (Z * Addr)) : list event :=
  (λ q, EvQuery q.1 q.2 (mkMsg [D +:+ "."])) <$> l.

(** Each query arrives before the window opened by the one before it has
    closed. *)
Fixpoint chained (ttl : Z) (t : Z) (l : list (Z * Addr)) : Prop :=
  match l with
  | [] => True
  | q :: l' => q.1 < t + ttl ∧ chained ttl q.1 l'
  end.

(** The time of the last query of a run that starts at [t]. *)
Fixpoint last_time (t : Z) (l : list (Z * Addr)) : Z :=
  match l with
  | [] => t
  | q :: l' => last_time q.1 l'
  end.

(** ** Handlers for different names *)

(** Where a handler stands with respect to the store [cache0] it started
    from: it still names the domain and the address of [h0]; before its
    write the record of its domain is as in [cache0], and the value it holds
    is the one it read there; after its write the record is the one its
    append alone would have left. *)
Definition handler_ok (now : Z) (cache0 cache : gmap string Data)
    (h0 h : handler) : Prop :=
  h_domain h = h_domain h0 ∧ h_ip h = h_ip h0 ∧
  match h_pc h with
  | AtGet => cache !! h_domain h0 = cache0 !! h_domain h0
  | AtSet ips =>
      ips = cache_Get cache0 now (h_domain h0) ∧
      cache !! h_domain h0 = cache0 !! h_domain h0
  | Finished =>
      cache !! h_domain h0
      = Append cache0 now (h_domain h0) (h_ip h0) defaultTTL !! h_domain h0
  end.

Definition handlers_ok (now : Z) (cache0 : gmap string Data) (hs0 : list handler)
    (cache : gmap string Data) (hs : list handler) : Prop :=
  length hs = length hs0 ∧
  ∀ i h0 h, hs0 !! i = Some h0 → hs !! i = Some h → handler_ok now cache0 cache h0 h.

(** * Facts *)

(** ** Strings *)

Lemma len_zero (s : string) : len s = 0 ↔ s = "".
Proof.
  unfold len. destruct s; simpl; split; intros H; try done; lia.
Qed.

Lemma Split_nonempty (s : string) (sep : ascii) : Split s sep ≠ [].
Proof.
  destruct s as [|c s]; simpl; [done|].
  destruct (decide (c = sep)); [done|].
  destruct (Split s sep); done.
Qed.

Lemma Split_comma_free (s : string) : comma_free s → Split s comma = [s].
Proof.
  induction s as [|c s IH]; simpl; [done|].
  intros [Hc Hs]. rewrite decide_False by done. by rewrite IH.
Qed.

(** Splitting distributes over a separator. *)
Lemma Split_sep_app (a b : string) (sep : ascii) :
  Split (a +:+ String sep b) sep = (Split a sep ++ Split b sep)%list.
Proof.
  induction a as [|c a IH]; simpl.
  - by rewrite decide_True.
  - destruct (decide (c = sep)); [by rewrite IH|].
    rewrite IH. destruct (Split a sep) eqn:E; [by apply Split_nonempty in E|done].
Qed.

Lemma length_snoc (key : string) (c : ascii) :
  String.length (key +:+ String c "") = S (String.length key).
Proof. induction key as [|k key IH]; simpl; [done|]. by rewrite IH. Qed.

Lemma substring_snoc (key : string) (c : ascii) :
  substring 0 (String.length key) (key +:+ String c "") = key.
Proof. induction key as [|k key IH]; simpl; [done|]. by rewrite IH. Qed.

Lemma slice_drop_last (key : string) (c : ascii) :
  slice_to (key +:+ String c "") (len (key +:+ String c "") - 1) = Some key.
Proof.
  unfold slice_to, len. rewrite length_snoc.
  rewrite decide_True by lia.
  replace (Z.to_nat (Z.of_nat (S (String.length key)) - 1))
    with (String.length key) by lia.
  by rewrite substring_snoc.
Qed.

(** ** The store *)

Lemma Get_after_Set cache now key value ttl now' :
  now' < now + ttl → cache_Get (cache_Set cache now key value ttl) now' key = value.
Proof.
  intros H. unfold cache_Get, cache_Set. rewrite lookup_insert_eq. simpl.
  by rewrite decide_True.
Qed.

Lemma Get_expired_after_Set cache now key value ttl now' :
  now + ttl <= now' → cache_Get (cache_Set cache now key value ttl) now' key = "".
Proof.
  intros H. unfold cache_Get, cache_Set. rewrite lookup_insert_eq. simpl.
  rewrite decide_False; [done|lia].
Qed.

Lemma Get_other_Set cache now key key' value ttl now' :
  key ≠ key' →
  cache_Get (cache_Set cache now key value ttl) now' key' = cache_Get cache now' key'.
Proof.
  intros H. unfold cache_Get, cache_Set. by rewrite lookup_insert_ne.
Qed.

Lemma Get_after_Append cache now key ip ttl now' :
  now' < now + ttl →
  cache_Get (Append cache now key ip ttl) now' key
  = cache_Get cache now key +:+ String comma ip.
Proof. intros H. unfold Append. by rewrite Get_after_Set. Qed.

Lemma Split_joined (v : string) (addrs : list string) :
  Forall comma_free addrs →
  Split (foldl (λ s a, s +:+ String comma a) v addrs) comma
  = (Split v comma ++ addrs)%list.
Proof.
  intros H. revert v. induction H as [|a addrs Ha _ IH]; intros v; simpl.
  - by rewrite app_nil_r.
  - rewrite IH, Split_sep_app, (Split_comma_free a Ha). by rewrite <- app_assoc.
Qed.

(** ** The query recorder *)

Lemma ServeDNS_Returned cache now w req cache' :
  ServeDNS cache now w req = Returned cache' →
  ∃ domain ip, written_key (EvQuery now w req) = Some domain ∧ ip ≠ "" ∧
    (w = UDPAddr ip ∨ w = TCPAddr ip) ∧
    cache' = Append cache now domain ip defaultTTL.
Proof.
  unfold ServeDNS, written_key. intros H.
  destruct w as [ip|ip|net]; simpl in H; [| |done];
    (destruct (decide (ip = "")) as [|Hip]; [done|]);
    destruct (Question req) as [|name names]; try done;
    destruct (slice_to name (len name - 1)) as [domain|]; try done;
    injection H as <-; exists domain, ip; auto.
Qed.

Lemma ServeDNS_recognised cache now w ip key c names :
  w = UDPAddr ip ∨ w = TCPAddr ip → ip ≠ "" →
  ServeDNS cache now w (mkMsg ((key +:+ String c "") :: names))
  = Returned (Append cache now key ip defaultTTL).
Proof.
  intros [-> | ->] Hip; unfold ServeDNS; simpl;
    rewrite decide_False by done; by rewrite slice_drop_last.
Qed.

Lemma Append_lookup_other cache now key ip ttl key' :
  key ≠ key' → Append cache now key ip ttl !! key' = cache !! key'.
Proof. intros H. unfold Append, cache_Set. by rewrite lookup_insert_ne. Qed.

Lemma Append_lookup cache now key ip ttl :
  Append cache now key ip ttl !! key
  = Some (mkData (cache_Get cache now key +:+ String comma ip) (now + ttl)).
Proof. unfold Append, cache_Set. by rewrite lookup_insert_eq. Qed.

Lemma reachable_leading_separator cache :
  reachable cache →
  ∀ k d, cache !! k = Some d → ∃ rest, Value d = String comma rest.
Proof.
  induction 1 as [|cache now w req cache' _ IH Hs]; intros k d Hk.
  - by rewrite lookup_empty in Hk.
  - apply ServeDNS_Returned in Hs as (domain & ip & _ & _ & _ & ->).
    destruct (decide (domain = k)) as [->|Hne].
    + rewrite Append_lookup in Hk. injection Hk as <-. simpl.
      unfold cache_Get. destruct (cache !! k) as [d0|] eqn:E; [|by eexists].
      destruct (decide _); [|by eexists].
      destruct (IH _ _ E) as [rest ->]. by eexists.
    + rewrite Append_lookup_other in Hk by done. eauto.
Qed.


(** ** The write path *)

(** C1, as the code has it.  Two appends to a key that was absent or
    expired, the second within the window of the first, and a read within the
    window of the second: the reader's split of the stored value is the empty
    piece in front of the leading separator, then the two addresses in the
    order of arrival, each once and nothing else.  Addresses are texts
    without the separator. *)
Theorem append_ordering (cache : gmap string Data) (D a1 a2 : string) (ttl t1 t2 t3 : Z) :
  cache_Get cache t1 D = "" →
  t2 < t1 + ttl → t3 < t2 + ttl →
  comma_free a1 → comma_free a2 →
  Read (Append (Append cache t1 D a1 ttl) t2 D a2 ttl) t3 D = [""; a1; a2].
Proof.
  intros Hfresh H12 H23 Ha1 Ha2. unfold Read.
  rewrite Get_after_Append by done. rewrite Get_after_Append by done.
  rewrite Hfresh, !Split_sep_app.
  by rewrite (Split_comma_free a1), (Split_comma_free a2).
Qed.

Lemma append_ordering_witness :
  cache_Get ∅ 0 "a1b2.example.com" = "" ∧
  Read (Append (Append ∅ 0 "a1b2.example.com" "1.2.3.4" 300)
               10 "a1b2.example.com" "5.6.7.8" 300) 20 "a1b2.example.com"
  = [""; "1.2.3.4"; "5.6.7.8"].
Proof.
  split; [reflexivity|].
  apply (append_ordering ∅ "a1b2.example.com" "1.2.3.4" "5.6.7.8" 300 0 10 20).
  - reflexivity.
  - lia.
  - lia.
  - simpl. repeat split; discriminate.
  - simpl. repeat split; discriminate.
Defined.

(** C1 as stated fails: the read has three pieces, not two. *)
Lemma append_ordering_counterexample :
  Read (Append (Append ∅ 0 "a1b2.example.com" "1.2.3.4" 300)
               10 "a1b2.example.com" "5.6.7.8" 300) 20 "a1b2.example.com"
  ≠ ["1.2.3.4"; "5.6.7.8"].
Proof. vm_compute. discriminate. Qed.

(** C7, as the code has it.  A query from a recognised transport with an
    address text: the handler takes the last byte off the name of the first
    question, whatever that byte is, so a name that ends in the root
    separator loses exactly that separator; it then appends the address under
    that key with the window of 300 seconds. *)
Theorem record_drops_last_byte (cache : gmap string Data) (now : Z) (w : Addr)
    (ip key : string) (c : ascii) (names : list string) :
  w = UDPAddr ip ∨ w = TCPAddr ip → ip ≠ "" →
  ServeDNS cache now w (mkMsg ((key +:+ String c "") :: names))
  = Returned (cache_Set cache now key (cache_Get cache now key +:+ "," +:+ ip) 300).
Proof. intros Hw Hip. by rewrite (ServeDNS_recognised _ _ _ ip). Qed.

Lemma record_drops_last_byte_witness :
  ServeDNS ∅ 0 (UDPAddr "1.2.3.4") (mkMsg ["x.test."])
  = Returned {[ "x.test" := mkData ",1.2.3.4" 300 ]}.
Proof.
  exact (record_drops_last_byte ∅ 0 (UDPAddr "1.2.3.4") "1.2.3.4" "x.test" "."%char []
           (or_introl eq_refl) ltac:(discriminate)).
Defined.

(** C7 as stated fails: a name without a root separator is not left as it
    is, its last byte goes all the same. *)
Lemma record_strip_counterexample :
  ServeDNS ∅ 0 (UDPAddr "1.2.3.4") (mkMsg ["abc"])
  = Returned (Append ∅ 0 "ab" "1.2.3.4" defaultTTL) ∧
  ServeDNS ∅ 0 (UDPAddr "1.2.3.4") (mkMsg ["abc"])
  ≠ Returned (Append ∅ 0 (spec_strip_root "abc") "1.2.3.4" defaultTTL).
Proof.
  split; [reflexivity|].
  intros H.
  apply (f_equal (λ o, match o with
                       | Returned m => m !! "abc"
                       | Panicked _ => None
                       end)) in H.
  vm_compute in H. discriminate.
Qed.

(** C8, as the code has it.  A remote address that is neither a UDP nor a
    TCP address leaves [ip] empty, and the handler panics with the value
    "IP not found?" before it looks at the question or touches the store. *)
Theorem unrecognised_address_panics (cache : gmap string Data) (now : Z)
    (network : string) (req : Msg) :
  ServeDNS cache now (OtherAddr network) req = Panicked (PanicValue "IP not found?").
Proof. reflexivity. Qed.

(** C8 as stated fails: on such an address the handler does not return. *)
Lemma unrecognised_address_counterexample :
  ¬ ∃ cache', ServeDNS ∅ 0 (OtherAddr "unix") (mkMsg ["x.test."]) = Returned cache'.
Proof. intros [cache' H]. discriminate H. Qed.

(** C10.  A first append to a key that is absent or expired stores the
    separator followed by the address; and in every store a server reaches
    from the empty one, the value of each key begins with the separator, so
    its split begins with the empty piece, followed by at least one more. *)
Theorem leading_separator (cache : gmap string Data) (k : string) :
  reachable cache →
  (∀ now ip ttl, cache_Get cache now k = "" →
     Append cache now k ip ttl !! k = Some (mkData ("," +:+ ip) (now + ttl))) ∧
  (∀ d, cache !! k = Some d →
     ∃ piece pieces, Split (Value d) comma = "" :: piece :: pieces).
Proof.
  intros Hreach. split.
  - intros now ip ttl Hfresh. by rewrite Append_lookup, Hfresh.
  - intros d Hd. destruct (reachable_leading_separator _ Hreach _ _ Hd) as [rest ->].
    change (Split (String comma rest) comma) with ("" :: Split rest comma).
    destruct (Split rest comma) as [|piece pieces] eqn:E;
      [by apply Split_nonempty in E|]. eauto.
Qed.

Lemma leading_separator_witness :
  reachable {[ "x.test" := mkData ",1.2.3.4" 300 ]} ∧
  ∃ piece pieces, Split ",1.2.3.4" comma = "" :: piece :: pieces.
Proof.
  assert (Hreach : reachable {[ "x.test" := mkData ",1.2.3.4" 300 ]}).
  { apply (reach_query ∅ 0 (UDPAddr "1.2.3.4") (mkMsg ["x.test."])).
    - apply reach_empty.
    - reflexivity. }
  split; [exact Hreach|].
  apply (proj2 (leading_separator _ "x.test" Hreach) (mkData ",1.2.3.4" 300)).
  reflexivity.
Defined.



(** ** Overlapping and serial appends *)

Lemma Get_foldl_Append cache now now' D ttl (addrs : list string) :
  addrs ≠ [] → 0 < ttl → now' < now + ttl →
  cache_Get (foldl (λ c a, Append c now D a ttl) cache addrs) now' D
  = foldl (λ s a, s +:+ String comma a) (cache_Get cache now D) addrs.
Proof.
  intros Hne Httl Hnow. revert cache Hne.
  induction addrs as [|a addrs IH]; intros cache Hne; [done|]. simpl.
  destruct addrs as [|b addrs].
  - simpl. by apply Get_after_Append.
  - rewrite IH by done. f_equal. apply Get_after_Append. lia.
Qed.

(** A handler that runs its two steps back to back does an [Append]. *)
Lemma run_turn now i schedule cache hs D ip :
  hs !! i = Some (mkHandler D ip AtGet) →
  run now (i :: i :: schedule) cache hs
  = run now schedule (Append cache now D ip defaultTTL)
        (<[i := mkHandler D ip Finished]> hs).
Proof.
  intros Hi. pose proof (lookup_lt_Some _ _ _ Hi) as Hlt.
  simpl. rewrite Hi. simpl.
  rewrite list_lookup_insert_eq by done. simpl.
  by rewrite list_insert_insert_eq.
Qed.

Lemma run_serial now D (ipf : nat → string) turns cache hs :
  NoDup turns →
  (∀ i, i ∈ turns → hs !! i = Some (mkHandler D (ipf i) AtGet)) →
  (run now (serial turns) cache hs).1
  = foldl (λ c a, Append c now D a defaultTTL) cache (ipf <$> turns).
Proof.
  intros Hnd. revert cache hs.
  induction Hnd as [|i turns Hi _ IH]; intros cache hs Hhs; [done|].
  change (serial (i :: turns)) with (i :: i :: serial turns).
  rewrite (run_turn _ _ _ _ _ D (ipf i)) by (apply Hhs; left).
  rewrite IH; [done|].
  intros j Hj. rewrite list_lookup_insert_ne by (intros ->; done).
  apply Hhs. by right.
Qed.

(** C3, as the code has it.  Appends to one key that do not overlap (each
    handler reads and writes before the next one reads), in any order of the
    handlers, all within one window: every address is in what a reader then
    splits out of the store. *)
Theorem serial_appends_survive (cache : gmap string Data) (now now' : Z)
    (D : string) (ips : list string) (turns : list nat) :
  Forall comma_free ips →
  turns ≡ₚ seq 0 (length ips) →
  now' < now + defaultTTL →
  ∀ a, a ∈ ips → a ∈ Read (run now (serial turns) cache (spawn D ips)).1 now' D.
Proof.
  intros Hfree Hperm Hnow a Ha.
  set (ipf := λ i : nat, default "" (ips !! i)).
  assert (Hin : ∀ i, i ∈ turns → ∃ x, ips !! i = Some x).
  { intros i Hi. rewrite Hperm in Hi. apply elem_of_seq in Hi.
    apply lookup_lt_is_Some. lia. }
  rewrite (run_serial now D ipf).
  - apply list_elem_of_lookup in Ha as [i Hi].
    assert (Hit : i ∈ turns).
    { rewrite Hperm. apply elem_of_seq. apply lookup_lt_Some in Hi. lia. }
    assert (Haf : a ∈ ipf <$> turns).
    { apply list_elem_of_fmap. exists i. split; [|done]. unfold ipf. by rewrite Hi. }
    unfold Read. rewrite Get_foldl_Append.
    + rewrite Split_joined; [apply elem_of_app; by right|].
      apply Forall_forall. intros x Hx.
      apply list_elem_of_fmap in Hx as (j & -> & Hj).
      destruct (Hin j Hj) as [y Hy]. unfold ipf. rewrite Hy. simpl.
      rewrite Forall_forall in Hfree. apply Hfree.
      apply list_elem_of_lookup. eauto.
    + intros E. rewrite E in Haf. by apply not_elem_of_nil in Haf.
    + done.
    + done.
  - rewrite Hperm. apply NoDup_seq.
  - intros i Hi. destruct (Hin i Hi) as [x Hx].
    unfold spawn, ipf. by rewrite list_lookup_fmap, Hx.
Qed.

Lemma serial_appends_survive_witness :
  Read (run 0 (serial [1%nat; 0%nat]) ∅ (spawn "x.test" ["1.2.3.4"; "5.6.7.8"])).1
       299 "x.test" = [""; "5.6.7.8"; "1.2.3.4"] ∧
  "1.2.3.4" ∈ Read (run 0 (serial [1%nat; 0%nat]) ∅
                      (spawn "x.test" ["1.2.3.4"; "5.6.7.8"])).1 299 "x.test".
Proof.
  split; [reflexivity|].
  apply (serial_appends_survive ∅ 0 299 "x.test" ["1.2.3.4"; "5.6.7.8"]
           [1%nat; 0%nat]).
  - repeat constructor; discriminate.
  - apply perm_swap.
  - reflexivity.
  - left.
Defined.

(** C3 as stated fails: two handlers for one domain whose steps interleave
    (both read before either writes) leave only the address of the later
    writer. *)
Lemma lost_update_counterexample :
  run 0 [0%nat; 1%nat; 0%nat; 1%nat] ∅ (spawn "x.test" ["1.2.3.4"; "5.6.7.8"])
  = ({[ "x.test" := mkData ",5.6.7.8" 300 ]},
     [mkHandler "x.test" "1.2.3.4" Finished; mkHandler "x.test" "5.6.7.8" Finished]) ∧
  "1.2.3.4" ∉ Read (run 0 [0%nat; 1%nat; 0%nat; 1%nat] ∅
                      (spawn "x.test" ["1.2.3.4"; "5.6.7.8"])).1 1 "x.test".
Proof.
  split; [reflexivity|].
  change (Read _ _ _) with [""; "5.6.7.8"].
  intros H. repeat (apply elem_of_cons in H as [H|H]; [discriminate H|]).
  by apply not_elem_of_nil in H.
Qed.

(** ** The aggregator *)

Lemma empty_first_order (m : gmap string Z) : range_order m (empty_first m).
Proof. unfold range_order, empty_first. apply filter_app_complement. Qed.

Lemma empty_last_order (m : gmap string Z) : range_order m (empty_last m).
Proof.
  unfold range_order, empty_last. rewrite Permutation_app_comm.
  apply filter_app_complement.
Qed.


Lemma put_if_absent_kept (out : gmap N Response) asn r n e :
  out !! n = Some e → put_if_absent out asn r !! n = Some e.
Proof.
  intros H. unfold put_if_absent. destruct (out !! asn) eqn:E; [done|].
  rewrite lookup_insert_ne; [done|]. intros ->. congruence.
Qed.

Lemma put_if_absent_new (out : gmap N Response) asn r :
  out !! asn = None → put_if_absent out asn r !! asn = Some r.
Proof. intros H. unfold put_if_absent. rewrite H. apply lookup_insert_eq. Qed.

Lemma put_if_absent_other (out : gmap N Response) asn r n :
  asn ≠ n → put_if_absent out asn r !! n = out !! n.
Proof.
  intros H. unfold put_if_absent. destruct (out !! asn); [done|].
  by rewrite lookup_insert_ne.
Qed.

Section AggregatorFacts.

Variable net_IP : Type.
Variable ParseIP : string → net_IP.
Variable dbCountry : net_IP → option geoip2_Country.
Variable dbASN : net_IP → option geoip2_ASN.

Local Abbreviation humanize_db := (humanize net_IP ParseIP dbCountry dbASN).
Local Abbreviation lookup_db := (lookup net_IP ParseIP dbCountry dbASN).
Local Abbreviation enrich_db := (enrich net_IP ParseIP dbCountry dbASN).

(** One turn of the loop at a non-empty key. *)
Lemma humanize_cons ipstr rest out :
  ipstr ≠ "" →
  humanize_db (ipstr :: rest) out
  = match enrich_db ipstr with
    | Some (asn, r) => humanize_db rest (put_if_absent out asn r)
    | None => None
    end.
Proof.
  intros H. simpl. rewrite decide_False by (by rewrite len_zero).
  unfold enrich.
  destruct (dbCountry (ParseIP ipstr)); [|done].
  by destruct (dbASN (ParseIP ipstr)).
Qed.

Lemma humanize_empty_key rest out : humanize_db ("" :: rest) out = Some out.
Proof. reflexivity. Qed.

(** An entry, once in the mapping, stays as it is. *)
Lemma humanize_keeps order out0 out n e :
  out0 !! n = Some e → humanize_db order out0 = Some out → out !! n = Some e.
Proof.
  revert out0. induction order as [|a order IH]; intros out0 Hn Hrun.
  - simpl in Hrun. by injection Hrun as <-.
  - destruct (decide (a = "")) as [->|Ha].
    + rewrite humanize_empty_key in Hrun. by injection Hrun as <-.
    + rewrite humanize_cons in Hrun by done.
      destruct (enrich_db a) as [[asn r]|]; [|done].
      eapply IH; [|done]. by apply put_if_absent_kept.
Qed.

(** Every entry of the result was in the mapping at the start or is the
    enriched entry of a key the loop was given. *)
Lemma humanize_origin order out0 out n e :
  humanize_db order out0 = Some out → out !! n = Some e →
  out0 !! n = Some e ∨ ∃ a, a ∈ order ∧ a ≠ "" ∧ enrich_db a = Some (n, e).
Proof.
  revert out0. induction order as [|a order IH]; intros out0 Hrun Hn.
  - simpl in Hrun. injection Hrun as <-. by left.
  - destruct (decide (a = "")) as [->|Ha].
    + rewrite humanize_empty_key in Hrun. injection Hrun as <-. by left.
    + rewrite humanize_cons in Hrun by done.
      destruct (enrich_db a) as [[asn r]|] eqn:E; [|done].
      destruct (IH _ Hrun Hn) as [H0|(b & Hb & Hbne & Hbe)].
      * destruct (decide (asn = n)) as [->|Hne].
        -- destruct (out0 !! n) as [e0|] eqn:E0.
           ++ left. rewrite (put_if_absent_kept _ _ _ _ e0) in H0 by done. done.
           ++ rewrite put_if_absent_new in H0 by done. injection H0 as ->.
              right. exists a. split; [left|done].
        -- left. by rewrite put_if_absent_other in H0.
      * right. exists b. split; [by right|done].
Qed.

(** The first key with a given identifier decides the entry. *)
Lemma humanize_first pre a1 rest out0 out n e1 :
  Forall (λ a, a ≠ "") pre →
  Forall (λ a, ∀ e, enrich_db a ≠ Some (n, e)) pre →
  out0 !! n = None →
  a1 ≠ "" → enrich_db a1 = Some (n, e1) →
  humanize_db (pre ++ a1 :: rest) out0 = Some out →
  out !! n = Some e1.
Proof.
  intros Hne Hfirst. revert out0.
  induction pre as [|a pre IH]; intros out0 Hn Ha1 He1 Hrun; simpl in Hrun.
  - change (humanize_db (a1 :: rest) out0 = Some out) in Hrun.
    rewrite humanize_cons, He1 in Hrun by done.
    eapply humanize_keeps; [|done]. by apply put_if_absent_new.
  - apply Forall_cons in Hne as [Ha Hne].
    apply Forall_cons in Hfirst as [Hfa Hfirst].
    change (humanize_db (a :: pre ++ a1 :: rest) out0 = Some out) in Hrun.
    rewrite humanize_cons in Hrun by done.
    destruct (enrich_db a) as [[asn r]|] eqn:E; [|done].
    apply (IH Hne Hfirst (put_if_absent out0 asn r)); try done.
    rewrite put_if_absent_other; [done|]. intros ->. by apply (Hfa r).
Qed.

Lemma lookup_JSON cache now r range d out :
  Body r = Some d →
  lookup_db cache now r range = RespJSON out →
  humanize_db (range (collect cache now d)) ∅ = Some out.
Proof.
  unfold lookup. intros ->.
  destruct (decide (Method r = "OPTIONS")); [done|].
  destruct (humanize_db _ ∅); [|done]. by intros [= ->].
Qed.

(** C4.  When the loop reaches an address [a1] whose network identifier no
    earlier address had, the entry of that identifier in the response is the
    enriched entry of [a1], with its organisation, its country and [a1]
    itself; an address [a2] that comes later and resolves to the same
    identifier changes no part of it. *)
Theorem first_seen_wins (cache : gmap string Data) (now : Z) (r : Request)
    (range : gmap string Z → list string) (d pre mid post : list string)
    (a1 a2 : string) (n : N) (e1 e2 : Response) (out : gmap N Response) :
  Body r = Some d →
  range (collect cache now d) = (pre ++ a1 :: mid ++ a2 :: post)%list →
  Forall (λ a, a ≠ "") pre → a1 ≠ "" →
  Forall (λ a, ∀ e, enrich_db a ≠ Some (n, e)) pre →
  enrich_db a1 = Some (n, e1) →
  enrich_db a2 = Some (n, e2) →
  lookup_db cache now r range = RespJSON out →
  out !! n = Some e1.
Proof.
  intros Hd Horder Hpre Ha1 Hfirst He1 _ Hrun.
  apply (lookup_JSON _ _ _ _ d) in Hrun; [|done]. rewrite Horder in Hrun.
  by apply (humanize_first pre a1 (mid ++ a2 :: post) ∅ out n e1).
Qed.


(** The loop leaves at the empty key: when it comes first, nothing is
    resolved and the answer is the empty mapping. *)
Lemma lookup_break cache now r range d rest :
  Method r ≠ "OPTIONS" → Body r = Some d →
  range (collect cache now d) = "" :: rest →
  lookup_db cache now r range = RespJSON ∅.
Proof.
  intros Hm Hd Ho. unfold lookup. rewrite decide_False by done.
  by rewrite Hd, Ho.
Qed.

Lemma humanize_failure pre a rest out0 :
  Forall (λ x, x ≠ "" ∧ is_Some (enrich_db x)) pre →
  a ≠ "" → enrich_db a = None →
  humanize_db (pre ++ a :: rest) out0 = None.
Proof.
  intros Hpre Ha Hfail. revert out0.
  induction Hpre as [|x pre [Hx [[asn e] He]] _ IH]; intros out0.
  - change (humanize_db (a :: rest) out0 = None).
    by rewrite humanize_cons, Hfail.
  - change (humanize_db (x :: pre ++ a :: rest) out0 = None).
    rewrite humanize_cons, He by done. apply IH.
Qed.

(** An address that the loop reaches and that a reader does not know fails
    the whole request. *)
Lemma lookup_failure_reached cache now r range d pre a rest :
  Method r ≠ "OPTIONS" → Body r = Some d →
  range (collect cache now d) = (pre ++ a :: rest)%list →
  Forall (λ x, x ≠ "" ∧ is_Some (enrich_db x)) pre →
  a ≠ "" → enrich_db a = None →
  lookup_db cache now r range = RespError "failed parsing IPs" 400.
Proof.
  intros Hm Hd Ho Hpre Ha Hfail. unfold lookup. rewrite decide_False by done.
  rewrite Hd, Ho. by rewrite humanize_failure.
Qed.

End AggregatorFacts.

(** ** The aggregator on the sample data *)

Lemma first_seen_wins_witness :
  empty_last (collect three_addresses 3 ["x.test"])
  = ["5.6.7.8"; "1.2.3.5"; "1.2.3.4"; ""] ∧
  sample_lookup three_addresses 3 sample_request empty_last
  = RespJSON first_seen_answer ∧
  first_seen_answer !! 64500%N = Some (mkResponse "ExampleISP-2" "CA" "1.2.3.5").
Proof.
  split; [vm_compute; reflexivity|]. split; [vm_compute; reflexivity|].
  apply (first_seen_wins string sample_ParseIP sample_Country sample_ASN
           three_addresses 3 sample_request empty_last ["x.test"]
           ["5.6.7.8"] [] [""] "1.2.3.5" "1.2.3.4" 64500%N
           (mkResponse "ExampleISP-2" "CA" "1.2.3.5")
           (mkResponse "ExampleISP" "US" "1.2.3.4") first_seen_answer).
  - vm_compute; reflexivity.
  - vm_compute; reflexivity.
  - repeat constructor. discriminate.
  - discriminate.
  - constructor; [|constructor]. intros e H. vm_compute in H. congruence.
  - vm_compute; reflexivity.
  - vm_compute; reflexivity.
  - vm_compute; reflexivity.
Defined.





(** C2 on the code.  The store holds 1.2.3.4 and 5.6.7.8 for [x.test], both
    known to the datasets; the loop visits the empty key first, leaves at
    line 103, and the response is the empty mapping: neither address was
    resolved. *)
Theorem break_skips_addresses :
  range_order (collect two_networks 2 ["x.test"])
              (empty_first (collect two_networks 2 ["x.test"])) ∧
  empty_first (collect two_networks 2 ["x.test"]) = [""; "5.6.7.8"; "1.2.3.4"] ∧
  sample_enrich "1.2.3.4" = Some (64500%N, mkResponse "ExampleISP" "US" "1.2.3.4") ∧
  sample_enrich "5.6.7.8" = Some (64501%N, mkResponse "OtherISP" "DE" "5.6.7.8") ∧
  sample_lookup two_networks 2 sample_request empty_first = RespJSON ∅.
Proof.
  split; [apply empty_first_order|]. repeat split; vm_compute; reflexivity.
Qed.

(** C5 on the code.  The store holds 10.0.0.1 for [x.test], which the
    datasets do not know.  When the loop reaches it the request fails; when
    the loop visits the empty key first it leaves at line 103 and the request
    succeeds with the empty mapping. *)
Theorem break_hides_failure :
  range_order (collect unknown_address 2 ["x.test"])
              (empty_first (collect unknown_address 2 ["x.test"])) ∧
  empty_first (collect unknown_address 2 ["x.test"]) = [""; "10.0.0.1"] ∧
  sample_enrich "10.0.0.1" = None ∧
  sample_lookup unknown_address 2 sample_request empty_last
  = RespError "failed parsing IPs" 400 ∧
  sample_lookup unknown_address 2 sample_request empty_first = RespJSON ∅.
Proof.
  split; [apply empty_first_order|]. repeat split; vm_compute; reflexivity.
Qed.

(** * Further properties of the code *)

(** ** The query recorder, case by case *)

Lemma slice_to_last (name : string) :
  is_Some (slice_to name (len name - 1)) ↔ name ≠ "".
Proof.
  unfold slice_to, len. split.
  - intros [d Hd] ->. by vm_compute in Hd.
  - intros Hne. destruct name as [|c name]; [done|].
    rewrite decide_True; [by eexists|]. simpl String.length. lia.
Qed.

Lemma ServeDNS_text cache now w key c names :
  addr_text w ≠ "" →
  ServeDNS cache now w (mkMsg ((key +:+ String c "") :: names))
  = Returned (Append cache now key (addr_text w) defaultTTL).
Proof.
  intros Hw. apply ServeDNS_recognised; [|done].
  destruct w; simpl in *; auto. done.
Qed.

Lemma Read_Append cache t t' D ip ttl :
  t' < t + ttl → comma_free ip →
  Read (Append cache t D ip ttl) t' D = (Read cache t D ++ [ip])%list.
Proof.
  intros Ht Hip. unfold Read. rewrite Get_after_Append by done.
  by rewrite Split_sep_app, (Split_comma_free ip).
Qed.

(** X1.  The handler returns exactly when the peer is a UDP or TCP peer with
    an address text and the message has a first question whose name has at
    least one byte; in every other case the goroutine panics. *)
Theorem ServeDNS_returns_iff (cache : gmap string Data) (now : Z) (w : Addr)
    (req : Msg) :
  (∃ cache', ServeDNS cache now w req = Returned cache') ↔
  addr_text w ≠ "" ∧ ∃ name names, Question req = name :: names ∧ name ≠ "".
Proof.
  split.
  - intros [cache' H].
    apply ServeDNS_Returned in H as (domain & ip & Hk & Hip & Hw & _).
    split; [by destruct Hw as [-> | ->]|].
    simpl in Hk. destruct (Question req) as [|name names]; [done|].
    exists name, names. split; [done|]. apply slice_to_last. by eexists.
  - intros [Hw (name & names & Hq & Hname)].
    apply slice_to_last in Hname as [domain Hd].
    exists (Append cache now domain (addr_text w) defaultTTL).
    unfold ServeDNS. rewrite Hq, Hd.
    destruct w as [ip|ip|net]; simpl in *; [| |done]; by rewrite decide_False.
Qed.

(** X2.  A query that is recorded writes one key, the name without its last
    byte: the record of that key gets the deadline now + 300, every other
    record is left exactly as it was, and no key leaves the store. *)
Theorem ServeDNS_frame (cache : gmap string Data) (now : Z) (w : Addr) (req : Msg)
    (cache' : gmap string Data) :
  ServeDNS cache now w req = Returned cache' →
  ∃ key, written_key (EvQuery now w req) = Some key ∧
    (Timestamp <$> cache' !! key) = Some (now + 300) ∧
    (∀ k, k ≠ key → cache' !! k = cache !! k) ∧
    dom cache' = {[key]} ∪ dom cache.
Proof.
  intros H. apply ServeDNS_Returned in H as (key & ip & Hk & _ & _ & ->).
  exists key. split; [done|]. split; [by rewrite Append_lookup|]. split.
  - intros k Hne. by apply Append_lookup_other.
  - unfold Append, cache_Set. apply dom_insert_L.
Qed.

Lemma ServeDNS_frame_witness :
  ∃ key, written_key (EvQuery 7 (TCPAddr "5.6.7.8") (mkMsg ["y.test."])) = Some key ∧
    (Timestamp <$> Append two_networks 7 "y.test" "5.6.7.8" defaultTTL !! key)
    = Some (7 + 300) ∧
    (∀ k, k ≠ key →
       Append two_networks 7 "y.test" "5.6.7.8" defaultTTL !! k = two_networks !! k) ∧
    dom (Append two_networks 7 "y.test" "5.6.7.8" defaultTTL)
    = {[key]} ∪ dom two_networks.
Proof.
  apply (ServeDNS_frame two_networks 7 (TCPAddr "5.6.7.8") (mkMsg ["y.test."])).
  reflexivity.
Defined.

(** X3.  A recorded query adds exactly one piece at the end of what a reader
    of its key sees: a read within 300 seconds of the query yields the pieces
    that were readable when the query arrived, in the same order, followed
    by the address of the peer.  Nothing is dropped and nothing is
    deduplicated. *)
Theorem recorded_query_read_back (cache : gmap string Data) (t t' : Z) (w : Addr)
    (D : string) (c : ascii) (names : list string) (cache' : gmap string Data) :
  ServeDNS cache t w (mkMsg ((D +:+ String c "") :: names)) = Returned cache' →
  comma_free (addr_text w) →
  t' < t + 300 →
  Read cache' t' D = (Read cache t D ++ [addr_text w])%list.
Proof.
  intros H Hfree Ht.
  assert (Hw : addr_text w ≠ "").
  { apply ServeDNS_Returned in H as (_ & ip & _ & Hip & [-> | ->] & _); done. }
  rewrite ServeDNS_text in H by done. injection H as <-.
  by apply Read_Append.
Qed.

Lemma recorded_query_read_back_witness :
  Read (Append two_networks 100 "x.test" "1.2.3.4" defaultTTL) 399 "x.test"
  = [""; "1.2.3.4"; "5.6.7.8"; "1.2.3.4"].
Proof.
  apply (recorded_query_read_back two_networks 100 399 (UDPAddr "1.2.3.4")
           "x.test" "."%char []).
  - reflexivity.
  - simpl. repeat split; discriminate.
  - lia.
Defined.

Lemma exec_all_queries_for cache D (t0 : Z) (w0 : Addr) (l : list (Z * Addr)) (t' : Z) :
  Forall (λ q, addr_text q.2 ≠ "" ∧ comma_free (addr_text q.2)) ((t0, w0) :: l) →
  chained defaultTTL t0 l →
  t' < last_time t0 l + defaultTTL →
  ∃ cache', exec_all cache (queries_for D ((t0, w0) :: l)) = Returned cache' ∧
    Read cache' t' D
    = (Read cache t0 D ++ (addr_text w0 :: ((λ q, addr_text q.2) <$> l)))%list.
Proof.
  revert cache t0 w0. induction l as [|[t1 w1] l IH]; intros cache t0 w0 Hall Hch Ht.
  - apply Forall_cons in Hall as [[Hw Hfree] _]. simpl in *.
    rewrite ServeDNS_text by done. eexists. split; [done|].
    by apply Read_Append.
  - apply Forall_cons in Hall as [[Hw Hfree] Hall]. destruct Hch as [H01 Hch].
    simpl in H01, Hch, Ht.
    destruct (IH (Append cache t0 D (addr_text w0) defaultTTL) t1 w1 Hall Hch Ht)
      as (cache' & Hrun & Hread).
    exists cache'. split.
    + change (queries_for D ((t0, w0) :: (t1, w1) :: l))
        with (EvQuery t0 w0 (mkMsg [D +:+ "."]) :: queries_for D ((t1, w1) :: l)).
      simpl exec_all. simpl exec. rewrite ServeDNS_text by done. exact Hrun.
    + rewrite Hread, Read_Append by done. by rewrite <- app_assoc.
Qed.

(** X4.  The window slides: in a run of queries for one name in which each
    query arrives less than 300 seconds after the one before it, every
    address stays readable, in order of arrival, until 300 seconds after the
    last query, however long the run lasts as a whole. *)
Theorem sliding_window (cache : gmap string Data) (D : string) (t0 : Z) (w0 : Addr)
    (l : list (Z * Addr)) (t' : Z) :
  Forall (λ q, addr_text q.2 ≠ "" ∧ comma_free (addr_text q.2)) ((t0, w0) :: l) →
  chained 300 t0 l →
  t' < last_time t0 l + 300 →
  ∃ cache', exec_all cache (queries_for D ((t0, w0) :: l)) = Returned cache' ∧
    Read cache' t' D
    = (Read cache t0 D ++ (addr_text w0 :: ((λ q, addr_text q.2) <$> l)))%list.
Proof. apply exec_all_queries_for. Qed.

Lemma sliding_window_witness :
  ∃ cache',
    exec_all ∅ (queries_for "x.test"
                  [(0, UDPAddr "1.2.3.4"); (299, TCPAddr "5.6.7.8");
                   (598, UDPAddr "1.2.3.4")]) = Returned cache' ∧
    Read cache' 897 "x.test" = [""; "1.2.3.4"; "5.6.7.8"; "1.2.3.4"].
Proof.
  refine (sliding_window ∅ "x.test" 0 (UDPAddr "1.2.3.4")
            [(299, TCPAddr "5.6.7.8"); (598, UDPAddr "1.2.3.4")] 897 _ _ _).
  - repeat constructor; simpl; try discriminate.
  - simpl. lia.
  - simpl. lia.
Defined.

(** X5.  A query that arrives when the record of its name has expired starts
    the list afresh: the addresses stored before are not carried over, and a
    read within the new window yields the empty leading piece and the new
    address only. *)
Theorem expired_record_restarts (cache : gmap string Data) (t t' : Z) (w : Addr)
    (D : string) (c : ascii) (names : list string) (d : Data)
    (cache' : gmap string Data) :
  ServeDNS cache t w (mkMsg ((D +:+ String c "") :: names)) = Returned cache' →
  cache !! D = Some d → Timestamp d <= t →
  comma_free (addr_text w) →
  t' < t + 300 →
  cache' !! D = Some (mkData ("," +:+ addr_text w) (t + 300)) ∧
  Read cache' t' D = [""; addr_text w].
Proof.
  intros H Hd Hexp Hfree Ht.
  assert (Hw : addr_text w ≠ "").
  { apply ServeDNS_Returned in H as (_ & ip & _ & Hip & [-> | ->] & _); done. }
  rewrite ServeDNS_text in H by done. injection H as <-.
  assert (HG : cache_Get cache t D = "").
  { unfold cache_Get. rewrite Hd. rewrite decide_False; [done|lia]. }
  split.
  - by rewrite Append_lookup, HG.
  - rewrite Read_Append by done. unfold Read. by rewrite HG.
Qed.

Lemma expired_record_restarts_witness :
  Append two_networks 301 "x.test" "9.9.9.9" defaultTTL !! "x.test"
  = Some (mkData ",9.9.9.9" 601) ∧
  Read (Append two_networks 301 "x.test" "9.9.9.9" defaultTTL) 302 "x.test"
  = [""; "9.9.9.9"].
Proof.
  apply (expired_record_restarts two_networks 301 302 (UDPAddr "9.9.9.9")
           "x.test" "."%char [] (mkData ",1.2.3.4,5.6.7.8" 301)).
  - reflexivity.
  - reflexivity.
  - simpl. lia.
  - simpl. repeat split; discriminate.
  - lia.
Defined.

(** ** What the aggregator collects *)

Lemma elem_of_keys (m : gmap string Z) (k : string) : k ∈ keys m ↔ is_Some (m !! k).
Proof.
  unfold keys. rewrite list_elem_of_fmap. split.
  - intros ([k' v] & -> & H). apply elem_of_map_to_list in H. by eexists.
  - intros [v H]. exists (k, v). split; [done|]. by apply elem_of_map_to_list.
Qed.

Lemma count_ips_is_Some (m : gmap string Z) (ips : list string) (k : string) :
  is_Some (count_ips m ips !! k) ↔ is_Some (m !! k) ∨ k ∈ ips.
Proof.
  revert m. induction ips as [|ip ips IH]; intros m.
  - simpl. split; [by left|]. intros [H|H]; [done|]. by apply not_elem_of_nil in H.
  - change (count_ips m (ip :: ips))
      with (count_ips (<[ip := wrap_int (default 0 (m !! ip) + 1)]> m) ips).
    rewrite IH, lookup_insert_is_Some, elem_of_cons.
    split.
    + intros [[->|[_ H]]|H]; auto.
    + intros [H|[->|H]]; auto.
      destruct (decide (ip = k)) as [->|Hne]; auto.
Qed.

Lemma collect_from_is_Some cache now (domains : list string) (m : gmap string Z) k :
  is_Some (foldl (λ m domain, count_ips m (Split (cache_Get cache now domain) comma))
             m domains !! k)
  ↔ is_Some (m !! k) ∨ ∃ d, d ∈ domains ∧ k ∈ Read cache now d.
Proof.
  revert m. induction domains as [|d domains IH]; intros m; simpl.
  - split; [by left|]. intros [H|(d & H & _)]; [done|]. by apply not_elem_of_nil in H.
  - rewrite IH, count_ips_is_Some. unfold Read. split.
    + intros [[H|H]|(d' & Hd' & H)]; [by left| |].
      * right. exists d. split; [left|done].
      * right. exists d'. split; [by right|done].
    + intros [H|(d' & Hd' & H)]; [by left; left|].
      apply elem_of_cons in Hd' as [->|Hd'].
      * left. by right.
      * right. by exists d'.
Qed.

Lemma collect_keys cache now (domains : list string) (k : string) :
  k ∈ keys (collect cache now domains) ↔ ∃ d, d ∈ domains ∧ k ∈ Read cache now d.
Proof.
  rewrite elem_of_keys. unfold collect. rewrite collect_from_is_Some.
  rewrite lookup_empty. split; [|by right].
  intros [[? H]|H]; [done|done].
Qed.

Lemma reachable_empty_piece cache now (d : string) :
  reachable cache → "" ∈ Read cache now d.
Proof.
  intros Hreach. unfold Read, cache_Get.
  destruct (cache !! d) as [v|] eqn:E; [|by left].
  destruct (decide _); [|by left].
  destruct (reachable_leading_separator _ Hreach _ _ E) as [rest ->].
  change (Split (String comma rest) comma) with ("" :: Split rest comma). by left.
Qed.



(** X7.  In a store that a server has reached by answering queries, a
    request for at least one domain always puts the empty key into
    [uniqips]: every admissible order of the loop consists of some non-empty
    addresses, then the empty key, then the rest. *)
Theorem empty_key_always_collected (cache : gmap string Data) (now : Z)
    (domains order : list string) :
  reachable cache → domains ≠ [] →
  range_order (collect cache now domains) order →
  ∃ pre rest, order = (pre ++ "" :: rest)%list ∧ Forall (λ a, a ≠ "") pre.
Proof.
  intros Hreach Hne Ho.
  assert (Hin : "" ∈ order).
  { unfold range_order in Ho. rewrite Ho. apply collect_keys.
    destruct domains as [|d domains]; [done|].
    exists d. split; [left|]. by apply reachable_empty_piece. }
  apply list_elem_of_split_l in Hin as (pre & rest & -> & Hpre).
  exists pre, rest. split; [done|].
  apply Forall_forall. intros a Ha ->. done.
Qed.

Lemma two_networks_reachable : reachable two_networks.
Proof.
  apply (reach_query (Append ∅ 0 "x.test" "1.2.3.4" 300) 1
           (UDPAddr "5.6.7.8") (mkMsg ["x.test."])); [|reflexivity].
  apply (reach_query ∅ 0 (UDPAddr "1.2.3.4") (mkMsg ["x.test."])); [|reflexivity].
  apply reach_empty.
Qed.

Lemma empty_key_always_collected_witness :
  ∃ pre rest,
    empty_last (collect two_networks 2 ["x.test"]) = (pre ++ "" :: rest)%list ∧
    Forall (λ a, a ≠ "") pre.
Proof.
  apply (empty_key_always_collected two_networks 2 ["x.test"]).
  - apply two_networks_reachable.
  - discriminate.
  - apply empty_last_order.
Defined.

(** X8.  A recorded query is collected: within 300 seconds of a query for a
    name, a request that lists the name without its last byte has the
    address of the peer among the keys of [uniqips], so every admissible
    order of the loop contains it. *)
Theorem recorded_query_is_collected (cache : gmap string Data) (t t' : Z) (w : Addr)
    (D : string) (c : ascii) (names domains order : list string)
    (cache' : gmap string Data) :
  ServeDNS cache t w (mkMsg ((D +:+ String c "") :: names)) = Returned cache' →
  comma_free (addr_text w) →
  t' < t + 300 →
  D ∈ domains →
  range_order (collect cache' t' domains) order →
  addr_text w ∈ order.
Proof.
  intros H Hfree Ht HD Ho.
  assert (Hw : addr_text w ≠ "").
  { apply ServeDNS_Returned in H as (_ & ip & _ & Hip & [-> | ->] & _); done. }
  rewrite ServeDNS_text in H by done. injection H as <-.
  unfold range_order in Ho. rewrite Ho. apply collect_keys.
  exists D. split; [done|]. rewrite Read_Append by done.
  apply elem_of_app. right. left.
Qed.

Lemma recorded_query_is_collected_witness :
  "9.9.9.9" ∈ empty_first
    (collect (Append two_networks 100 "y.test" "9.9.9.9" defaultTTL) 399
       ["x.test"; "y.test"]).
Proof.
  refine (recorded_query_is_collected two_networks 100 399 (TCPAddr "9.9.9.9")
            "y.test" "."%char [] ["x.test"; "y.test"] _
            (Append two_networks 100 "y.test" "9.9.9.9" defaultTTL) _ _ _ _ _).
  - reflexivity.
  - simpl. repeat split; discriminate.
  - lia.
  - right. left.
  - apply empty_first_order.
Defined.

(** ** What the aggregator answers *)

Section AggregatorAnswers.

Variable net_IP : Type.
Variable ParseIP : string → net_IP.
Variable dbCountry : net_IP → option geoip2_Country.
Variable dbASN : net_IP → option geoip2_ASN.

Local Abbreviation humanize_db := (humanize net_IP ParseIP dbCountry dbASN).
Local Abbreviation lookup_db := (lookup net_IP ParseIP dbCountry dbASN).
Local Abbreviation enrich_db := (enrich net_IP ParseIP dbCountry dbASN).

Lemma enrich_IP a n e : enrich_db a = Some (n, e) → IP e = a.
Proof.
  unfold enrich. destruct (dbCountry (ParseIP a)); [|done].
  destruct (dbASN (ParseIP a)); [|done]. by intros [= _ <-].
Qed.

(** The loop does not look past the empty key. *)
Lemma humanize_stops pre rest out0 :
  Forall (λ a, a ≠ "") pre →
  humanize_db (pre ++ "" :: rest) out0 = humanize_db pre out0.
Proof.
  intros Hpre. revert out0. induction Hpre as [|a pre Ha _ IH]; intros out0; [done|].
  change (humanize_db (a :: (pre ++ "" :: rest)) out0 = humanize_db (a :: pre) out0).
  rewrite !(humanize_cons _ _ _ _ a) by done.
  destruct (enrich_db a) as [[asn e]|]; [apply IH|done].
Qed.

Lemma humanize_None_cause order out0 :
  humanize_db order out0 = None → ∃ a, a ∈ order ∧ a ≠ "" ∧ enrich_db a = None.
Proof.
  revert out0. induction order as [|a order IH]; intros out0 H; [done|].
  destruct (decide (a = "")) as [->|Ha]; [done|].
  rewrite humanize_cons in H by done.
  destruct (enrich_db a) as [[asn e]|] eqn:E.
  - destruct (IH _ H) as (b & Hb & Hne & Hfail). exists b. split; [by right|done].
  - exists a. split; [left|done].
Qed.

(** The mapping after a loop over non-empty keys: the entry of an
    identifier that was not in the mapping before is the entry of the first
    key that has this identifier. *)
Lemma humanize_first_of pre out0 out n e :
  Forall (λ a, a ≠ "") pre →
  humanize_db pre out0 = Some out →
  out0 !! n = None →
  out !! n = Some e ↔
  ∃ pre1 a pre2, pre = (pre1 ++ a :: pre2)%list ∧ enrich_db a = Some (n, e) ∧
    Forall (λ b, ∀ e', enrich_db b ≠ Some (n, e')) pre1.
Proof.
  intros Hpre. revert out0. induction Hpre as [|b pre Hb _ IH]; intros out0 Hrun Hn.
  - simpl in Hrun. injection Hrun as <-. rewrite Hn. split; [done|].
    intros (pre1 & a & pre2 & Hsplit & _). by destruct pre1.
  - rewrite humanize_cons in Hrun by done.
    destruct (enrich_db b) as [[nb eb]|] eqn:Eb; [|done].
    destruct (decide (nb = n)) as [->|Hne].
    + rewrite (humanize_keeps _ _ _ _ _ _ _ n eb (put_if_absent_new _ _ _ Hn) Hrun).
      split.
      * intros [= <-]. exists [], b, pre. by repeat split.
      * intros (pre1 & a & pre2 & Hsplit & Ha & Hfirst).
        destruct pre1 as [|x pre1]; simpl in Hsplit; injection Hsplit as -> ->.
        -- congruence.
        -- apply Forall_cons in Hfirst as [Hx _]. by destruct (Hx eb).
    + rewrite (IH _ Hrun) by (by rewrite put_if_absent_other). split.
      * intros (pre1 & a & pre2 & -> & Ha & Hfirst).
        exists (b :: pre1), a, pre2. repeat split; [done|].
        apply Forall_cons. split; [|done]. intros e'. congruence.
      * intros (pre1 & a & pre2 & Hsplit & Ha & Hfirst).
        destruct pre1 as [|x pre1]; simpl in Hsplit; injection Hsplit as -> ->.
        -- congruence.
        -- apply Forall_cons in Hfirst as [_ Hfirst]. by exists pre1, a, pre2.
Qed.

(** A loop over non-empty keys that ends with a mapping has resolved every
    one of them. *)
Lemma humanize_all_resolved pre out0 out :
  Forall (λ a, a ≠ "") pre →
  humanize_db pre out0 = Some out →
  ∀ a, a ∈ pre → is_Some (enrich_db a).
Proof.
  intros Hpre. revert out0. induction Hpre as [|b pre Hb _ IH]; intros out0 Hrun a Ha.
  - by apply not_elem_of_nil in Ha.
  - rewrite humanize_cons in Hrun by done.
    destruct (enrich_db b) as [[nb eb]|] eqn:Eb; [|done].
    apply elem_of_cons in Ha as [->|Ha]; [by rewrite Eb|]. by eapply IH.
Qed.

(** X9.  The answer, entry by entry.  When the loop visits the non-empty
    addresses [pre] and then the empty key, and the request is answered
    with a mapping, both datasets know every address in [pre]; the mapping
    has an entry for a network identifier exactly when one of these
    addresses has that identifier, and the entry is that of the first such
    address; what the order places after the empty key has no part in the
    answer. *)
Theorem answer_before_empty_key (cache : gmap string Data) (now : Z) (r : Request)
    (range : gmap string Z → list string) (d pre rest : list string)
    (out : gmap N Response) :
  Body r = Some d →
  range (collect cache now d) = (pre ++ "" :: rest)%list →
  Forall (λ a, a ≠ "") pre →
  lookup_db cache now r range = RespJSON out →
  (∀ a, a ∈ pre → is_Some (enrich_db a)) ∧
  ∀ n e, out !! n = Some e ↔
    ∃ pre1 a pre2, pre = (pre1 ++ a :: pre2)%list ∧ enrich_db a = Some (n, e) ∧
      Forall (λ b, ∀ e', enrich_db b ≠ Some (n, e')) pre1.
Proof.
  intros Hd Ho Hpre Hrun.
  apply (lookup_JSON _ _ _ _ _ _ _ _ d) in Hrun; [|done].
  rewrite Ho, humanize_stops in Hrun by done. split.
  - by apply (humanize_all_resolved pre ∅ out).
  - intros n e. by apply (humanize_first_of pre ∅).
Qed.

(** X10.  The answer holds nothing that was not recorded: with an
    admissible order, the IP of every entry is a non-empty piece that a read
    of one of the requested domains yields at the time of the request, and
    the identifier, organisation and country of the entry are those the
    datasets give for this IP. *)
Theorem lookup_sound (cache : gmap string Data) (now : Z) (r : Request)
    (range : gmap string Z → list string) (d : list string)
    (out : gmap N Response) (n : N) (e : Response) :
  Body r = Some d →
  range_order (collect cache now d) (range (collect cache now d)) →
  lookup_db cache now r range = RespJSON out →
  out !! n = Some e →
  IP e ≠ "" ∧ enrich_db (IP e) = Some (n, e) ∧
  ∃ dm, dm ∈ d ∧ IP e ∈ Read cache now dm.
Proof.
  intros Hd Ho Hrun Hn.
  apply (lookup_JSON _ _ _ _ _ _ _ _ d) in Hrun; [|done].
  destruct (humanize_origin _ _ _ _ _ _ _ _ _ Hrun Hn) as [H|(a & Ha & Hne & He)];
    [by rewrite lookup_empty in H|].
  rewrite (enrich_IP _ _ _ He). split; [done|]. split; [done|].
  unfold range_order in Ho. rewrite Ho in Ha. by apply collect_keys.
Qed.

(** X11.  Nothing recorded, nothing answered: when every requested domain is
    absent from the store or expired, which includes the request for no
    domain at all, the answer is the empty mapping under every admissible
    order, and no dataset is consulted. *)
Theorem lookup_nothing_recorded (cache : gmap string Data) (now : Z) (r : Request)
    (range : gmap string Z → list string) (d : list string) :
  Method r ≠ "OPTIONS" → Body r = Some d →
  (∀ dm, dm ∈ d → cache_Get cache now dm = "") →
  range_order (collect cache now d) (range (collect cache now d)) →
  lookup_db cache now r range = RespJSON ∅.
Proof.
  intros Hm Hd Hnone Ho. unfold lookup. rewrite decide_False by done. rewrite Hd.
  destruct (range (collect cache now d)) as [|k order] eqn:E; [done|].
  assert (Hk : k = "").
  { assert (Hin : k ∈ k :: order) by left.
    unfold range_order in Ho. rewrite Ho in Hin.
    apply collect_keys in Hin as (dm & Hdm & Hin).
    unfold Read in Hin. rewrite (Hnone dm Hdm) in Hin.
    by apply list_elem_of_singleton in Hin. }
  by rewrite Hk.
Qed.

(** X12.  Why a request fails.  Every failure is a 400.  It is either the
    decoding failure of the body, or "failed parsing IPs", and then the loop
    was given a non-empty key for which one of the two datasets returned an
    error.  A pre-flight request (method OPTIONS) never fails. *)
Theorem lookup_error_cause (cache : gmap string Data) (now : Z) (r : Request)
    (range : gmap string Z → list string) (msg : string) (code : Z) :
  lookup_db cache now r range = RespError msg code →
  code = 400 ∧ Method r ≠ "OPTIONS" ∧
  ((msg = "failed decoding input" ∧ Body r = None) ∨
   (msg = "failed parsing IPs" ∧
    ∃ d a, Body r = Some d ∧ a ∈ range (collect cache now d) ∧ a ≠ "" ∧
           enrich_db a = None)).
Proof.
  unfold lookup. destruct (decide (Method r = "OPTIONS")) as [|Hm]; [done|].
  destruct (Body r) as [d|]; [|intros [= <- <-]; auto].
  destruct (humanize_db (range (collect cache now d)) ∅) eqn:E; [done|].
  intros [= <- <-]. split; [done|]. split; [done|]. right. split; [done|].
  apply humanize_None_cause in E as (a & Ha & Hne & Hfail). by exists d, a.
Qed.

End AggregatorAnswers.

Lemma answer_before_empty_key_witness :
  empty_last (collect three_addresses 3 ["x.test"])
  = (["5.6.7.8"; "1.2.3.5"; "1.2.3.4"] ++ "" :: [])%list ∧
  (∀ a, a ∈ ["5.6.7.8"; "1.2.3.5"; "1.2.3.4"] → is_Some (sample_enrich a)) ∧
  ∀ n e, first_seen_answer !! n = Some e ↔
    ∃ pre1 a pre2,
      ["5.6.7.8"; "1.2.3.5"; "1.2.3.4"] = (pre1 ++ a :: pre2)%list ∧
      sample_enrich a = Some (n, e) ∧
      Forall (λ b, ∀ e', sample_enrich b ≠ Some (n, e')) pre1.
Proof.
  split; [vm_compute; reflexivity|].
  refine (answer_before_empty_key string sample_ParseIP sample_Country sample_ASN
            three_addresses 3 sample_request empty_last ["x.test"]
            ["5.6.7.8"; "1.2.3.5"; "1.2.3.4"] [] first_seen_answer _ _ _ _).
  - vm_compute; reflexivity.
  - vm_compute; reflexivity.
  - repeat constructor; discriminate.
  - vm_compute; reflexivity.
Defined.

Lemma lookup_sound_witness :
  first_seen_answer !! 64500%N = Some (mkResponse "ExampleISP-2" "CA" "1.2.3.5") ∧
  "1.2.3.5" ≠ "" ∧
  sample_enrich "1.2.3.5" = Some (64500%N, mkResponse "ExampleISP-2" "CA" "1.2.3.5") ∧
  ∃ dm, dm ∈ ["x.test"] ∧ "1.2.3.5" ∈ Read three_addresses 3 dm.
Proof.
  split; [vm_compute; reflexivity|].
  refine (lookup_sound string sample_ParseIP sample_Country sample_ASN
            three_addresses 3 sample_request empty_last ["x.test"]
            first_seen_answer 64500%N (mkResponse "ExampleISP-2" "CA" "1.2.3.5")
            _ _ _ _).
  - vm_compute; reflexivity.
  - apply empty_last_order.
  - vm_compute; reflexivity.
  - vm_compute; reflexivity.
Defined.

Lemma lookup_nothing_recorded_witness :
  cache_Get two_networks 400 "x.test" = "" ∧
  sample_lookup two_networks 400
    (mkRequest "POST" (Some ["nowhere.test"; "x.test"])) empty_last
  = RespJSON ∅.
Proof.
  split; [vm_compute; reflexivity|].
  refine (lookup_nothing_recorded string sample_ParseIP sample_Country sample_ASN
            two_networks 400 (mkRequest "POST" (Some ["nowhere.test"; "x.test"]))
            empty_last ["nowhere.test"; "x.test"] _ _ _ _).
  - discriminate.
  - reflexivity.
  - intros dm Hdm.
    apply elem_of_cons in Hdm as [->|Hdm]; [vm_compute; reflexivity|].
    apply list_elem_of_singleton in Hdm as ->. vm_compute; reflexivity.
  - apply empty_last_order.
Defined.

Lemma lookup_error_cause_witness :
  sample_lookup unknown_address 2 sample_request empty_last
  = RespError "failed parsing IPs" 400 ∧
  400 = 400 ∧ Method sample_request ≠ "OPTIONS" ∧
  (("failed parsing IPs" = "failed decoding input" ∧ Body sample_request = None) ∨
   ("failed parsing IPs" = "failed parsing IPs" ∧
    ∃ d a, Body sample_request = Some d ∧
           a ∈ empty_last (collect unknown_address 2 d) ∧ a ≠ "" ∧
           sample_enrich a = None)).
Proof.
  split; [vm_compute; reflexivity|].
  refine (lookup_error_cause string sample_ParseIP sample_Country sample_ASN
            unknown_address 2 sample_request empty_last
            "failed parsing IPs" 400 _).
  vm_compute; reflexivity.
Defined.

(** ** Handlers that run at the same time *)

Lemma step_other_keys now cache h cache1 h1 :
  step now cache h = (cache1, h1) →
  h_domain h1 = h_domain h ∧ h_ip h1 = h_ip h ∧
  ∀ k, k ≠ h_domain h → cache1 !! k = cache !! k.
Proof.
  unfold step. destruct (h_pc h) as [|ips|]; intros [= <- <-]; simpl;
    repeat split; try done.
  intros k Hk. unfold cache_Set. by rewrite lookup_insert_ne.
Qed.

Lemma step_handler_ok now cache0 cache h0 h cache1 h1 :
  handler_ok now cache0 cache h0 h →
  step now cache h = (cache1, h1) →
  handler_ok now cache0 cache1 h0 h1.
Proof.
  intros (Hd & Hip & Hpc) Hstep. unfold step in Hstep. unfold handler_ok.
  destruct (h_pc h) as [|ips|] eqn:E; injection Hstep as <- <-; simpl.
  - repeat split; try done. unfold cache_Get. by rewrite Hd, Hpc.
  - destruct Hpc as [-> Hc]. repeat split; try done.
    rewrite Hd, Hip. unfold Append, cache_Set. by rewrite !lookup_insert_eq.
  - by rewrite E.
Qed.

Lemma run_handlers_ok now cache0 hs0 schedule cache hs :
  NoDup (h_domain <$> hs0) →
  handlers_ok now cache0 hs0 cache hs →
  handlers_ok now cache0 hs0 (run now schedule cache hs).1 (run now schedule cache hs).2.
Proof.
  intros Hnd. revert cache hs.
  induction schedule as [|i schedule IH]; intros cache hs Hok; [done|].
  simpl. destruct (hs !! i) as [h|] eqn:Ei; [|by apply IH].
  destruct (step now cache h) as [cache1 h1] eqn:Es. apply IH.
  destruct Hok as [Hlen Hok]. split; [by rewrite length_insert|].
  intros j h0j hj H0j Hj.
  destruct (decide (i = j)) as [->|Hij].
  - rewrite list_lookup_insert_eq in Hj by (by eapply lookup_lt_Some).
    injection Hj as <-. eapply step_handler_ok; [|done]. by apply (Hok j).
  - rewrite list_lookup_insert_ne in Hj by done.
    pose proof (Hok j h0j hj H0j Hj) as (Hd & Hip & Hpc).
    destruct (lookup_lt_is_Some_2 hs0 i) as [h0i H0i];
      [rewrite <- Hlen; by eapply lookup_lt_Some|].
    pose proof (Hok i h0i h H0i Ei) as (Hdi & _ & _).
    assert (Hne : h_domain h0j ≠ h_domain h).
    { rewrite Hdi. intros Heq. apply Hij.
      apply (NoDup_lookup _ i j (h_domain h0i) Hnd).
      - by rewrite list_lookup_fmap, H0i.
      - rewrite list_lookup_fmap, H0j. simpl. by rewrite Heq. }
    destruct (step_other_keys _ _ _ _ _ Es) as (_ & _ & Hframe).
    unfold handler_ok. rewrite (Hframe _ Hne). done.
Qed.

(** X13.  Handlers for different names do not disturb one another.  Start
    any number of handlers, no two for the same name, and let their reads
    and writes interleave in any way; whenever a handler has done its write,
    the record of its name is exactly the one its append alone would have
    left in the store the run started from. *)
Theorem independent_domains (cache : gmap string Data) (now : Z)
    (schedule : list nat) (hs0 : list handler) (i : nat) (h' : handler) :
  Forall (λ h, h_pc h = AtGet) hs0 →
  NoDup (h_domain <$> hs0) →
  (run now schedule cache hs0).2 !! i = Some h' →
  h_pc h' = Finished →
  (run now schedule cache hs0).1 !! h_domain h'
  = Append cache now (h_domain h') (h_ip h') defaultTTL !! h_domain h'.
Proof.
  intros Hstart Hnd Hi Hfin.
  assert (Hok0 : handlers_ok now cache hs0 cache hs0).
  { split; [done|]. intros j h0 h H0 H. rewrite H0 in H. injection H as <-.
    rewrite Forall_forall in Hstart. unfold handler_ok.
    rewrite (Hstart h0) by (by eapply list_elem_of_lookup_2). done. }
  destruct (run_handlers_ok now cache hs0 schedule cache hs0 Hnd Hok0) as [Hlen Hok].
  destruct (lookup_lt_is_Some_2 hs0 i) as [h0 H0];
    [rewrite <- Hlen; by eapply lookup_lt_Some|].
  destruct (Hok i h0 h' H0 Hi) as (Hd & Hip & Hpc).
  rewrite Hfin in Hpc. by rewrite Hd, Hip.
Qed.

Lemma independent_domains_witness :
  (run 0 [0%nat; 1%nat; 1%nat; 0%nat] two_networks
     [mkHandler "x.test" "9.9.9.9" AtGet; mkHandler "y.test" "8.8.8.8" AtGet]).2
    !! 0%nat = Some (mkHandler "x.test" "9.9.9.9" Finished) ∧
  (run 0 [0%nat; 1%nat; 1%nat; 0%nat] two_networks
     [mkHandler "x.test" "9.9.9.9" AtGet; mkHandler "y.test" "8.8.8.8" AtGet]).1
    !! "x.test"
  = Append two_networks 0 "x.test" "9.9.9.9" defaultTTL !! "x.test".
Proof.
  split; [reflexivity|].
  refine (independent_domains two_networks 0 [0%nat; 1%nat; 1%nat; 0%nat]
            [mkHandler "x.test" "9.9.9.9" AtGet; mkHandler "y.test" "8.8.8.8" AtGet]
            0%nat (mkHandler "x.test" "9.9.9.9" Finished) _ _ _ _).
  - repeat constructor.
  - simpl. apply NoDup_cons. split.
    + intros H. apply list_elem_of_singleton in H. discriminate H.
    + apply NoDup_singleton.
  - reflexivity.
  - reflexivity.
Defined.

(** X14.  Two handlers for one name that both read before either writes:
    in each of the four such interleavings the store ends as the append of
    the later writer alone would have left it, so the address of the earlier
    writer is not added. *)
Theorem overlap_keeps_last_writer (cache : gmap string Data) (now : Z)
    (D a b : string) :
  (run now [0%nat; 1%nat; 0%nat; 1%nat] cache (spawn D [a; b])).1
  = Append cache now D b defaultTTL ∧
  (run now [1%nat; 0%nat; 0%nat; 1%nat] cache (spawn D [a; b])).1
  = Append cache now D b defaultTTL ∧
  (run now [0%nat; 1%nat; 1%nat; 0%nat] cache (spawn D [a; b])).1
  = Append cache now D a defaultTTL ∧
  (run now [1%nat; 0%nat; 1%nat; 0%nat] cache (spawn D [a; b])).1
  = Append cache now D a defaultTTL.
Proof.
  repeat split; simpl; unfold Append, cache_Set; apply insert_insert_eq.
Qed.

(** ** The counts in [uniqips] *)

Lemma wrap_int_add (x y : Z) : wrap_int (wrap_int x + y) = wrap_int (x + y).
Proof.
  unfold wrap_int. f_equal.
  replace ((x + 2 ^ 63) mod 2 ^ 64 - 2 ^ 63 + y + 2 ^ 63)
    with ((x + 2 ^ 63) mod 2 ^ 64 + y) by lia.
  rewrite Zplus_mod_idemp_l. f_equal. lia.
Qed.

Lemma count_ips_lookup (m : gmap string Z) (l : list string) (k : string) :
  count_ips m l !! k
  = match length (filter (λ x, x = k) l) with
    | O => m !! k
    | S c => Some (wrap_int (default 0 (m !! k) + Z.of_nat (S c)))
    end.
Proof.
  revert m. induction l as [|ip l IH]; intros m; [done|].
  change (count_ips m (ip :: l))
    with (count_ips (<[ip := wrap_int (default 0 (m !! ip) + 1)]> m) l).
  rewrite IH. destruct (decide (ip = k)) as [->|Hne].
  - rewrite filter_cons_True by done. rewrite lookup_insert_eq. simpl default.
    simpl length. destruct (length _) as [|c]; [done|].
    rewrite wrap_int_add. do 2 f_equal. lia.
  - rewrite filter_cons_False by done. by rewrite lookup_insert_ne.
Qed.

Lemma collect_from_pieces cache now (domains : list string) (m : gmap string Z) :
  foldl (λ m domain, count_ips m (Split (cache_Get cache now domain) comma)) m domains
  = count_ips m (domains ≫= Read cache now).
Proof.
  revert m. induction domains as [|d domains IH]; intros m; [done|].
  simpl. rewrite IH. unfold count_ips at 3. by rewrite foldl_app.
Qed.

(** X15.  The count that line 95 keeps for a key is the number of times the
    piece was read, over all requested domains and with a domain that is
    requested twice read twice, as a 64-bit integer; a piece that was never
    read has no key. *)
Theorem uniqips_counts (cache : gmap string Data) (now : Z) (domains : list string)
    (k : string) :
  collect cache now domains !! k
  = match length (filter (λ x, x = k) (domains ≫= Read cache now)) with
    | O => None
    | S c => Some (wrap_int (Z.of_nat (S c)))
    end.
Proof.
  unfold collect. rewrite collect_from_pieces, count_ips_lookup.
  by rewrite lookup_empty.
Qed.
